(** * DNS service-discovery provider (pkg/discovery/dns/provider.go)

    A shallow embedding of [Provider], its refresh cycle [Resolve], the
    snapshot read [Addresses] and the helper [contains], followed by the
    properties the specification states about them.

    - The cache [p.resolved] is a Go [map[string][]string]; it is modelled
      by a [gmap string (list string)].  Ranging over a Go map visits the
      entries in an unspecified order, so a loop over the cache is modelled
      for an arbitrary enumeration of its entries.
    - The resolver is an interface value whose method performs network
      lookups: it is modelled by a transition function on an abstract
      resolver state, so that two lookups of the same name may answer
      differently.  The lists it returns are taken as values: the resolver
      is assumed not to write to a slice after returning it.
    - The two package-level Prometheus counters are carried next to the
      provider.  The logger is left out, and so is the mutex: the embedding
      is sequential, each method running from [Lock] to [Unlock] alone.
    - For the slice [Addresses] returns, module [Mem] keeps slices as
      windows on backing arrays in a store. *)

From Stdlib Require Import Ascii String.
From stdpp Require Import gmap strings list fin_maps.

Local Open Scope string_scope.
Local Open Scope list_scope.

(** ** strings.SplitN(addr, "+", 2) *)

Module Strings.

(** Cut [s] at its first ['+']: the text before it and the text after it,
    or [None] when [s] holds no ['+']. *)
Fixpoint cutPlus (s : string) : option (string * string) :=
  match s with
  | EmptyString => None
  | String c rest =>
      if Ascii.eqb c "+"%char then Some (EmptyString, rest)
      else match cutPlus rest with
           | Some (before, after) => Some (String c before, after)
           | None => None
           end
  end.

(** [strings.SplitN(s, "+", 2)]: at most two substrings, the second one
    being the unsplit remainder; a single-element slice holding [s] when
    the separator does not occur. *)
Definition SplitN_plus_2 (s : string) : list string :=
  match cutPlus s with
  | Some (before, after) => [before; after]
  | None => [s]
  end.

(** Whether the character ['+'] occurs in [s]. *)
Fixpoint hasPlus (s : string) : bool :=
  match s with
  | EmptyString => false
  | String c rest => if Ascii.eqb c "+"%char then true else hasPlus rest
  end.

End Strings.

(** ** Ranging over a Go map

    Go leaves the iteration order of a map unspecified.  An enumeration of
    [m] is any list that holds every entry of [m] exactly once. *)

Definition enumerates {A} (es : list (string * A)) (m : gmap string A) : Prop :=
  es ≡ₚ map_to_list m.

(** ** The provider *)

(** [contains] of provider.go. *)
Fixpoint contains (slice : list string) (str : string) : bool :=
  match slice with
  | [] => false
  | s :: rest => if String.eqb str s then true else contains rest str
  end.

Section Provider.

(** The [context.Context] handed to [Resolve], the Go [error] values and
    the state of the resolver implementation (network, canned table). *)
Context {Ctx Err R : Type}.

(** [Resolver.Resolve(ctx, name, qtype) ([]string, error)]. *)
Variable resolverResolve :
  Ctx -> string -> string -> R -> (list string * option Err) * R.

(** The provider together with the two package-level counters it bumps. *)
Record Provider := mkProvider {
  resolver : R;
  resolved : gmap string (list string);
  dnsResolveLookupsCount : nat;
  dnsResolveFailuresCount : nat
}.

(** [NewProvider]: an empty cache around the given resolver. *)
Definition NewProvider (r : R) : Provider :=
  mkProvider r ∅ 0 0.

(** One iteration of the first loop of [Resolve]. *)
Definition resolveEntry (ctx : Ctx) (p : Provider) (addr : string) : Provider :=
  match Strings.SplitN_plus_2 addr with
  | [qtype; name] =>
      let '((resolvedHosts, err), r') := resolverResolve ctx name qtype (resolver p) in
      let lookups := S (dnsResolveLookupsCount p) in
      match err with
      | Some _ =>
          (* The DNS resolution failed: the old records stay. *)
          mkProvider r' (resolved p) lookups (S (dnsResolveFailuresCount p))
      | None =>
          mkProvider r' (<[addr := resolvedHosts]> (resolved p)) lookups
                     (dnsResolveFailuresCount p)
      end
  | _ =>
      (* No lookup specified. *)
      mkProvider (resolver p) (<[addr := [addr]]> (resolved p))
                 (dnsResolveLookupsCount p) (dnsResolveFailuresCount p)
  end.

(** The first loop of [Resolve]: every entry of [addrs], in order. *)
Definition resolveEntries (ctx : Ctx) (p : Provider) (addrs : list string) : Provider :=
  foldl (resolveEntry ctx) p addrs.

(** The second loop: the keys met while ranging over the cache, in the
    order [es] of the iteration, that [addrs] does not contain. *)
Definition entriesToDelete (addrs : list string) (es : list (string * list string))
  : list string :=
  foldl (fun acc e => if negb (contains addrs e.1) then acc ++ [e.1] else acc) [] es.

(** The third loop: [delete(p.resolved, toDelete)] for each collected key. *)
Definition deleteEntries (m : gmap string (list string)) (toDelete : list string)
  : gmap string (list string) :=
  foldl (fun m k => delete k m) m toDelete.

(** The prune step for an iteration order [es] of the cache. *)
Definition pruneIn (es : list (string * list string)) (addrs : list string)
           (m : gmap string (list string)) : gmap string (list string) :=
  deleteEntries m (entriesToDelete addrs es).

(** [Provider.Resolve]: the refreshed provider and the returned error.
    The prune step ranges over the cache in the order [map_to_list] gives;
    [pruneIn_enumeration] shows that no other order changes its result. *)
Definition Resolve (ctx : Ctx) (addrs : list string) (p : Provider)
  : Provider * option Err :=
  let p1 := resolveEntries ctx p addrs in
  (mkProvider (resolver p1)
              (pruneIn (map_to_list (resolved p1)) addrs (resolved p1))
              (dnsResolveLookupsCount p1) (dnsResolveFailuresCount p1),
   None).

(** What one iteration of the first loop does with its entry: it stores
    the entry itself (no lookup asked for), stores the hosts the resolver
    returned, or meets a failed lookup. *)
Inductive Outcome :=
| Literal
| Resolved (hosts : list string)
| Failed (e : Err).

(** The outcome of processing [addr] when the provider is [p]. *)
Definition entryOutcome (ctx : Ctx) (p : Provider) (addr : string) : Outcome :=
  match Strings.SplitN_plus_2 addr with
  | [qtype; name] =>
      match (resolverResolve ctx name qtype (resolver p)).1 with
      | (resolvedHosts, None) => Resolved resolvedHosts
      | (_, Some e) => Failed e
      end
  | _ => Literal
  end.

(** The outcomes of the entries of [addrs], in order, for a refresh cycle
    started at [p]. *)
Fixpoint outcomes (ctx : Ctx) (p : Provider) (addrs : list string) : list Outcome :=
  match addrs with
  | [] => []
  | addr :: rest => entryOutcome ctx p addr :: outcomes ctx (resolveEntry ctx p addr) rest
  end.

(** The value an iteration assigns to [p.resolved[addr]], if any. *)
Definition written (addr : string) (o : Outcome) : option (list string) :=
  match o with
  | Literal => Some [addr]
  | Resolved hosts => Some hosts
  | Failed _ => None
  end.

(** The value the last assignment to [p.resolved[k]] stores, over a run
    of entries paired with their outcomes. *)
Fixpoint lastWrite (k : string) (run : list (string * Outcome)) : option (list string) :=
  match run with
  | [] => None
  | (addr, o) :: rest =>
      match lastWrite k rest with
      | Some v => Some v
      | None => if decide (addr = k) then written addr o else None
      end
  end.

(** The loop of [Provider.Addresses] for an iteration order [es]. *)
Definition AddressesIn (es : list (string * list string)) : list string :=
  foldl (fun result e => result ++ e.2) [] es.

(** The results the loop can produce over a cache [m]: one for each order
    the cache can be ranged over in. *)
Definition AddressesOf (m : gmap string (list string)) (result : list string) : Prop :=
  exists es, enumerates es m /\ result = AddressesIn es.

(** [Provider.Addresses]: any result the loop can produce. *)
Definition Addresses (p : Provider) (result : list string) : Prop :=
  AddressesOf (resolved p) result.

(** The result for the iteration order of [map_to_list]. *)
Definition AddressesList (p : Provider) : list string :=
  AddressesIn (map_to_list (resolved p)).

End Provider.

Arguments Provider : clear implicits.
Arguments mkProvider {R}.
Arguments NewProvider {R}.
Arguments resolver {R}.
Arguments resolved {R}.
Arguments dnsResolveLookupsCount {R}.
Arguments dnsResolveFailuresCount {R}.
Arguments AddressesIn : clear implicits.
Arguments AddressesOf : clear implicits.
Arguments Addresses {R}.
Arguments AddressesList {R}.
Arguments entriesToDelete : clear implicits.
Arguments deleteEntries : clear implicits.
Arguments pruneIn : clear implicits.
Arguments Outcome : clear implicits.
Arguments Literal {Err}.
Arguments Resolved {Err}.
Arguments Failed {Err}.
Arguments written {Err}.
Arguments lastWrite {Err}.

(** ** Runs of the provider *)

(** The number of failed lookups among the outcomes of a cycle. *)
Fixpoint countFailed {Err} (os : list (Outcome Err)) : nat :=
  match os with
  | [] => 0
  | Failed _ :: rest => S (countFailed rest)
  | _ :: rest => countFailed rest
  end.

Section ProviderRuns.

Context {Ctx Err R : Type}.
Variable resolverResolve :
  Ctx -> string -> string -> R -> (list string * option Err) * R.

(** The providers a program can hold: one that [NewProvider] returned, after
    any number of calls of [Resolve]. *)
Inductive reachable : Provider R -> Prop :=
| reachable_NewProvider (r : R) :
    reachable (NewProvider r)
| reachable_Resolve (ctx : Ctx) (addrs : list string) (p : Provider R) :
    reachable p -> reachable (Resolve resolverResolve ctx addrs p).1.

End ProviderRuns.

(** ** Slices and their backing arrays

    [Addresses] hands a slice to its caller, and the cache holds slices: a
    Go slice is a window (offset, length, capacity) on a backing array that
    other slices may share.  This module keeps the arrays in a store, so
    that a write through one slice shows through every slice on the same
    array. *)

Module Mem.

Definition loc : Type := positive.

(** The backing arrays. *)
Abbreviation heap := (gmap loc (list string)).

(** A slice value; [array = None] is the nil slice. *)
Record slice := mkSlice {
  array : option loc;
  offset : nat;
  len : nat;
  cap : nat
}.

Definition nilSlice : slice := mkSlice None 0 0 0.

(** The elements seen through a slice. *)
Definition elems (h : heap) (s : slice) : list string :=
  match array s with
  | Some a => take (len s) (drop (offset s) (default [] (h !! a)))
  | None => []
  end.

(** Overwrite the cells [i], [i+1], ... of an array with [xs]. *)
Definition writeAt (i : nat) (xs : list string) (cells : list string) : list string :=
  take i cells ++ xs ++ drop (i + length xs) cells.

(** [s[i] = v] for a slice [s]; for [i] out of range the program panics
    and nothing is written. *)
Definition store (h : heap) (s : slice) (i : nat) (v : string) : heap :=
  match array s with
  | Some a => if decide (i < len s) then alter (writeAt (offset s + i) [v]) a h else h
  | None => h
  end.

(** [append(s, xs...)]: when the capacity of [s] holds the new elements
    they are written in place behind the current ones; otherwise a new
    array is allocated, [growth oldcap needed] cells larger than needed. *)
Definition append (growth : nat -> nat -> nat) (h : heap) (s : slice) (xs : list string)
  : heap * slice :=
  let n := len s + length xs in
  if decide (n <= cap s) then
    match array s with
    | Some a =>
        (alter (writeAt (offset s + len s) xs) a h, mkSlice (Some a) (offset s) n (cap s))
    | None => (h, s)
    end
  else
    let a := fresh (dom h) in
    let c := n + growth (cap s) n in
    (<[a := elems h s ++ xs ++ replicate (c - n) ""]> h, mkSlice (Some a) 0 n c).

(** The loop of [Provider.Addresses] over a cache of slices, ranged over
    in the order [es]: the store it leaves and the slice it returns. *)
Definition Addresses (growth : nat -> nat -> nat) (es : list (string * slice)) (h : heap)
  : heap * slice :=
  foldl (fun '(h, result) e => append growth h result (elems h e.2)) (h, nilSlice) es.

(** The cache of slices read as a cache of lists. *)
Definition view (h : heap) (m : gmap string slice) : gmap string (list string) :=
  elems h <$> m.

(** Every cached slice lies on an allocated array. *)
Definition allocated (h : heap) (m : gmap string slice) : Prop :=
  forall k s a, m !! k = Some s -> array s = Some a -> a ∈ dom h.

(** The slice under construction: nil, or a window on an array that the
    store [h0] from before the call does not hold. *)
Definition ownResult (h0 h : heap) (result : slice) : Prop :=
  match array result with
  | Some a =>
      (a ∉ dom h0) /\ (len result <= cap result) /\
      exists cells, h !! a = Some cells /\ offset result + cap result <= length cells
  | None => len result = 0 /\ cap result = 0
  end.

(** The arrays of [h0] are in [h] as they are in [h0]. *)
Definition keeps (h0 h : heap) : Prop :=
  forall l, l ∈ dom h0 -> h !! l = h0 !! l.

End Mem.

(** ** Test doubles *)

Module Scripted.

(** A resolver that answers from a script, one canned answer per lookup
    whatever is asked, and fails once the script is used up. *)
Definition state : Type := list (list string * option string).

Definition lookup (_ : unit) (name qtype : string) (s : state)
  : (list string * option string) * state :=
  match s with
  | answer :: rest => (answer, rest)
  | [] => (([], Some "no more answers"), [])
  end.

(** A provider whose resolver answers once and then times out. *)
Definition answersThenFails : Provider state :=
  NewProvider [(["10.0.0.1:9090"], None); ([], Some "timeout")].

(** A provider whose resolver gives two different answers in a row. *)
Definition answersTwice : Provider state :=
  NewProvider [(["10.0.0.1:9090"], None); (["10.0.0.2:9090"], None)].

(** The provider after a first cycle in which ["dns+a"] resolved. *)
Definition afterFirstCycle : Provider state :=
  (Resolve lookup tt ["dns+a"] answersThenFails).1.

End Scripted.

Module Canned.

(** A resolver that answers from a table keyed by name and query type and
    fails for what the table does not hold; it has no state of its own. *)
Definition table : Type := list ((string * string) * list string).

Fixpoint find (t : table) (name qtype : string) : option (list string) :=
  match t with
  | [] => None
  | ((n, q), hosts) :: rest =>
      if (String.eqb n name && String.eqb q qtype)%bool then Some hosts
      else find rest name qtype
  end.

Definition lookup (t : table) (_ : unit) (name qtype : string) (s : unit)
  : (list string * option string) * unit :=
  match find t name qtype with
  | Some hosts => ((hosts, None), s)
  | None => (([], Some "lookup failed"), s)
  end.

Definition exampleTable : table :=
  [ (("example.com:9090", "dns"), ["10.0.0.1:9090"; "10.0.0.2:9090"]);
    (("_svc._tcp.example.com", "dnssrv"), ["10.0.0.5:7000"]);
    (("empty.example.com:9090", "dns"), []) ].

Definition exampleAddrs : list string :=
  ["dns+example.com:9090"; "dns+bad.example.com:9090"; "127.0.0.1:9090"].

(** The provider after a first cycle over [exampleAddrs]. *)
Definition afterFirstCycle : Provider unit :=
  (Resolve (lookup exampleTable) tt exampleAddrs (NewProvider tt)).1.

End Canned.

(** A store with one array, and a cache whose only slice is a window on the
    first two of its three cells. *)
Definition exampleHeap : Mem.heap := {[ 1%positive := ["10.0.0.1:9090"; "10.0.0.2:9090"; "spare"] ]}.

Definition exampleSlice : Mem.slice := Mem.mkSlice (Some 1%positive) 0 2 3.

Definition exampleSlices : gmap string Mem.slice := {[ "dns+example.com:9090" := exampleSlice ]}.

(** A provider whose cache is what [exampleSlices] shows in [exampleHeap]. *)
Definition exampleProvider : Provider unit :=
  mkProvider tt (Mem.view exampleHeap exampleSlices) 0 0.

(** The allocation policy that never reserves spare capacity. *)
Definition exactGrowth (oldcap needed : nat) : nat := 0.

(** The answers of the table resolver, as a function of name and type. *)
Definition cannedAnswer (t : Canned.table) (name qtype : string)
  : list string * option string :=
  match Canned.find t name qtype with
  | Some hosts => (hosts, None)
  | None => ([], Some "lookup failed")
  end.

(** A provider that still holds an entry from an earlier cycle. *)
Definition staleProvider : Provider Scripted.state :=
  mkProvider [] {[ "dns+old.example.com:9090" := ["10.0.0.9:9090"] ]} 1 0.

(** ** Splitting at the first ['+'] *)

Module StringsFacts.
Import Strings.

Lemma cutPlus_None s : cutPlus s = None <-> hasPlus s = false.
Proof.
  induction s as [|c s IH]; simpl; [done|].
  destruct (Ascii.eqb c "+"); [split; discriminate|].
  destruct (cutPlus s) as [[b a]|]; [|tauto].
  split; [discriminate|]. intros H. apply IH in H. discriminate.
Qed.

Lemma cutPlus_app q name :
  hasPlus q = false -> cutPlus (q ++ "+" ++ name)%string = Some (q, name).
Proof.
  induction q as [|c q IH]; simpl; [done|].
  destruct (Ascii.eqb c "+"); [discriminate|].
  intros H. by rewrite (IH H).
Qed.

Lemma cutPlus_Some s q name :
  cutPlus s = Some (q, name) ->
  s = (q ++ "+" ++ name)%string /\ hasPlus q = false.
Proof.
  revert q. induction s as [|c s IH]; intros q; simpl; [discriminate|].
  destruct (Ascii.eqb_spec c "+") as [->|Hc].
  - intros [= <- <-]. done.
  - destruct (cutPlus s) as [[b a]|]; [|discriminate].
    intros [= <- <-]. destruct (IH b eq_refl) as [-> Hb].
    split; [done|]. simpl. apply Ascii.eqb_neq in Hc. by rewrite Hc.
Qed.

Lemma SplitN_literal s : hasPlus s = false -> SplitN_plus_2 s = [s].
Proof. intros H. unfold SplitN_plus_2. apply cutPlus_None in H. by rewrite H. Qed.

Lemma SplitN_lookup s :
  hasPlus s = true ->
  exists q name, SplitN_plus_2 s = [q; name] /\ cutPlus s = Some (q, name).
Proof.
  intros H. unfold SplitN_plus_2.
  destruct (cutPlus s) as [[q name]|] eqn:E; [by exists q, name|].
  apply cutPlus_None in E. congruence.
Qed.

End StringsFacts.

(** ** The prune step *)

Lemma contains_elem_of slice str : contains slice str = true <-> str ∈ slice.
Proof.
  induction slice as [|s slice IH]; simpl.
  - split; [discriminate|]. by intros ?%elem_of_nil.
  - rewrite elem_of_cons. destruct (String.eqb_spec str s) as [->|Hne]; [tauto|].
    rewrite IH. split; [tauto|]. intros [?|?]; [congruence|done].
Qed.

Lemma contains_not_elem_of slice str : contains slice str = false <-> str ∉ slice.
Proof. rewrite <- contains_elem_of. by destruct (contains slice str). Qed.

Lemma entriesToDelete_snoc addrs es e :
  entriesToDelete addrs (es ++ [e]) =
  entriesToDelete addrs es ++ (if contains addrs e.1 then [] else [e.1]).
Proof.
  unfold entriesToDelete. rewrite foldl_app. simpl.
  destruct (contains addrs e.1); simpl; [by rewrite app_nil_r|done].
Qed.

Lemma elem_of_entriesToDelete addrs es k :
  k ∈ entriesToDelete addrs es <-> k ∈ es.*1 /\ contains addrs k = false.
Proof.
  induction es as [|e es IH] using rev_ind.
  - cbn. split; [by intros ?%elem_of_nil|]. by intros [?%elem_of_nil _].
  - rewrite entriesToDelete_snoc, fmap_app, !elem_of_app, IH. simpl.
    rewrite list_elem_of_singleton.
    destruct (contains addrs e.1) eqn:E.
    + rewrite elem_of_nil. split; [tauto|]. intros [[?| ->] ?]; [tauto|congruence].
    + rewrite list_elem_of_singleton. split; [|tauto]. intros [?| ->]; tauto.
Qed.

Lemma lookup_deleteEntries m toDelete k :
  deleteEntries m toDelete !! k = if decide (k ∈ toDelete) then None else m !! k.
Proof.
  unfold deleteEntries. revert m. induction toDelete as [|d ds IH]; intros m.
  - by rewrite decide_False by apply not_elem_of_nil.
  - cbn [foldl]. rewrite IH.
    destruct (decide (k ∈ ds)) as [Hin|Hnin].
    + by rewrite decide_True by (by right).
    + destruct (decide (k = d)) as [->|Hne].
      * rewrite decide_True by left. apply lookup_delete_eq.
      * rewrite decide_False by (rewrite elem_of_cons; tauto).
        by apply lookup_delete_ne.
Qed.

(** Whatever order the cache is ranged over in, the prune step keeps the
    entries whose key [addrs] contains and removes the others. *)
Lemma lookup_pruneIn es addrs m k :
  enumerates es m ->
  pruneIn es addrs m !! k = if contains addrs k then m !! k else None.
Proof.
  intros Hes. unfold pruneIn. rewrite lookup_deleteEntries.
  destruct (contains addrs k) eqn:E.
  - rewrite decide_False; [done|]. rewrite elem_of_entriesToDelete. intros [_ ?]; congruence.
  - destruct (decide _) as [|Hn]; [done|].
    destruct (m !! k) as [v|] eqn:Hk; [|done].
    exfalso. apply Hn, elem_of_entriesToDelete. split; [|done].
    apply list_elem_of_fmap. exists (k, v). split; [done|].
    rewrite Hes. by apply elem_of_map_to_list.
Qed.

Lemma pruneIn_enumeration es es' addrs m :
  enumerates es m -> enumerates es' m -> pruneIn es addrs m = pruneIn es' addrs m.
Proof.
  intros H H'. apply map_eq. intros k.
  by rewrite (lookup_pruneIn es), (lookup_pruneIn es').
Qed.

Lemma enumerates_map_to_list {A} (m : gmap string A) : enumerates (map_to_list m) m.
Proof. by unfold enumerates. Qed.

(** ** The refresh loop *)

Section RefreshLoop.

Context {Ctx Err R : Type}.
Variable resolverResolve :
  Ctx -> string -> string -> R -> (list string * option Err) * R.

Abbreviation resolveEntry := (resolveEntry resolverResolve).
Abbreviation resolveEntries := (resolveEntries resolverResolve).
Abbreviation entryOutcome := (entryOutcome resolverResolve).
Abbreviation outcomes := (outcomes resolverResolve).
Abbreviation Resolve := (Resolve resolverResolve).

Implicit Types (p : Provider R) (addrs : list string) (k addr : string).

(** An iteration assigns to the cache what its outcome says, under the
    key of its entry, and touches nothing else of the cache. *)
Lemma resolved_resolveEntry ctx p addr :
  resolved (resolveEntry ctx p addr) =
  match written addr (entryOutcome ctx p addr) with
  | Some v => <[addr := v]> (resolved p)
  | None => resolved p
  end.
Proof.
  unfold resolveEntry, entryOutcome.
  destruct (Strings.SplitN_plus_2 addr) as [|q [|name [|? ?]]]; try done.
  by destruct (resolverResolve ctx name q (resolver p)) as [[hosts [e|]] r'].
Qed.

Lemma resolveEntries_cons ctx p addr addrs :
  resolveEntries ctx p (addr :: addrs) = resolveEntries ctx (resolveEntry ctx p addr) addrs.
Proof. done. Qed.

Lemma resolveEntries_app ctx p addrs1 addrs2 :
  resolveEntries ctx p (addrs1 ++ addrs2) =
  resolveEntries ctx (resolveEntries ctx p addrs1) addrs2.
Proof. apply foldl_app. Qed.

Lemma length_outcomes ctx p addrs : length (outcomes ctx p addrs) = length addrs.
Proof. revert p. induction addrs as [|a addrs IH]; intros p; simpl; [done|]. by rewrite IH. Qed.

Lemma outcomes_app ctx p addrs1 addrs2 :
  outcomes ctx p (addrs1 ++ addrs2) =
  outcomes ctx p addrs1 ++ outcomes ctx (resolveEntries ctx p addrs1) addrs2.
Proof.
  revert p. induction addrs1 as [|a addrs1 IH]; intros p; simpl; [done|].
  by rewrite IH.
Qed.

(** The cache after the first loop, key by key: the value of the last
    assignment to the key, or what the cache held before. *)
Lemma lookup_resolveEntries ctx p addrs k :
  resolved (resolveEntries ctx p addrs) !! k =
  match lastWrite k (zip addrs (outcomes ctx p addrs)) with
  | Some v => Some v
  | None => resolved p !! k
  end.
Proof.
  revert p. induction addrs as [|a addrs IH]; intros p; [done|].
  rewrite resolveEntries_cons, IH. cbn [outcomes zip zip_with lastWrite].
  destruct (lastWrite k _) as [v|]; [done|].
  rewrite resolved_resolveEntry.
  destruct (decide (a = k)) as [->|Hne].
  - destruct (written k _); [apply lookup_insert_eq|done].
  - destruct (written a _); [by apply lookup_insert_ne|done].
Qed.

(** The cache after [Resolve], key by key. *)
Lemma lookup_Resolve ctx p addrs k :
  resolved (Resolve ctx addrs p).1 !! k =
  if contains addrs k then
    match lastWrite k (zip addrs (outcomes ctx p addrs)) with
    | Some v => Some v
    | None => resolved p !! k
    end
  else None.
Proof.
  unfold Resolve. cbn [fst resolved].
  rewrite lookup_pruneIn by apply enumerates_map_to_list.
  by rewrite lookup_resolveEntries.
Qed.

(** No assignment to [k] happens when no iteration on [k] stores a value. *)
Lemma lastWrite_no_write k (run : list (string * Outcome Err)) :
  (forall i o, run !! i = Some (k, o) -> written k o = None) ->
  lastWrite k run = None.
Proof.
  induction run as [|[a o] run IH]; intros Hall; [done|]. cbn.
  rewrite IH by (intros i o' Hi; apply (Hall (S i) o' Hi)).
  destruct (decide (a = k)) as [->|]; [|done].
  apply (Hall 0 o eq_refl).
Qed.

(** When every iteration on [k] stores [v] or nothing, the entry ends as
    [v] or as it was. *)
Lemma lastWrite_among k (run : list (string * Outcome Err)) v :
  (forall i o, run !! i = Some (k, o) -> written k o = None \/ written k o = Some v) ->
  lastWrite k run = None \/ lastWrite k run = Some v.
Proof.
  induction run as [|[a o] run IH]; intros Hall; [by left|]. cbn.
  destruct IH as [-> | ->]; [intros i o' Hi; apply (Hall (S i) o' Hi)| |by right].
  destruct (decide (a = k)) as [->|]; [|by left].
  apply (Hall 0 o eq_refl).
Qed.

(** An iteration on [k] that stores [v] decides the entry when the later
    iterations on [k] store [v] again or nothing. *)
Lemma lastWrite_last k (run : list (string * Outcome Err)) j o v :
  run !! j = Some (k, o) -> written k o = Some v ->
  (forall j' o', j < j' -> run !! j' = Some (k, o') ->
                 written k o' = None \/ written k o' = Some v) ->
  lastWrite k run = Some v.
Proof.
  revert j. induction run as [|[a oa] run IH]; intros j Hj Hv Hlater; [done|].
  destruct j as [|j]; cbn.
  - injection Hj as -> ->.
    destruct (lastWrite_among k run v) as [-> | ->]; [|by rewrite decide_True|done].
    intros i o' Hi. apply (Hlater (S i) o'); [lia|done].
  - rewrite (IH j); [done..|].
    intros j' o' Hlt Hj'. apply (Hlater (S j') o'); [lia|done].
Qed.

Lemma written_Failed k (o : Outcome Err) :
  (exists e, o = Failed e) -> written k o = None.
Proof. by intros [e ->]. Qed.

(** An entry without ['+'] is stored as it is. *)
Lemma entryOutcome_literal ctx p addr :
  Strings.hasPlus addr = false -> entryOutcome ctx p addr = Literal.
Proof.
  intros H. unfold entryOutcome. by rewrite (StringsFacts.SplitN_literal addr H).
Qed.

(** The outcome of the entry at position [i] is the outcome of that entry
    for the provider the earlier entries leave. *)
Lemma lookup_outcomes ctx p addrs i addr :
  addrs !! i = Some addr ->
  outcomes ctx p addrs !! i = Some (entryOutcome ctx (resolveEntries ctx p (take i addrs)) addr).
Proof.
  revert p i. induction addrs as [|a addrs IH]; intros p i Hi; [done|].
  destruct i as [|i]; simpl in *; [congruence|]. by apply IH.
Qed.

(** The counters: one lookup per entry that holds a ['+'], and one
    failure per failed outcome. *)
Lemma lookups_resolveEntries ctx p addrs :
  dnsResolveLookupsCount (resolveEntries ctx p addrs) =
  dnsResolveLookupsCount p + length (filter (fun a => Strings.hasPlus a = true) addrs).
Proof.
  revert p. induction addrs as [|a addrs IH]; intros p; [simpl; lia|].
  rewrite resolveEntries_cons, IH, filter_cons. unfold resolveEntry.
  destruct (decide (Strings.hasPlus a = true)) as [Hp|Hp].
  - destruct (StringsFacts.SplitN_lookup a Hp) as (q & name & -> & _).
    destruct (resolverResolve ctx name q (resolver p)) as [[hosts [e|]] r']; simpl; lia.
  - apply not_true_is_false in Hp. rewrite (StringsFacts.SplitN_literal a Hp). simpl. lia.
Qed.

End RefreshLoop.

(** ** The snapshot read *)

Lemma AddressesIn_from (acc : list string) (es : list (string * list string)) :
  foldl (fun result e => result ++ e.2) acc es = acc ++ concat es.*2.
Proof.
  revert acc. induction es as [|e es IH]; intros acc; simpl.
  - by rewrite app_nil_r.
  - by rewrite IH, app_assoc.
Qed.

Lemma AddressesIn_concat es : AddressesIn es = concat es.*2.
Proof. unfold AddressesIn. by rewrite AddressesIn_from. Qed.

Lemma AddressesOf_Permutation m result :
  AddressesOf m result -> result ≡ₚ concat (map_to_list m).*2.
Proof.
  intros (es & Hes & ->). rewrite AddressesIn_concat. unfold enumerates in Hes.
  by rewrite Hes.
Qed.

Lemma AddressesOf_map_to_list m : AddressesOf m (AddressesIn (map_to_list m)).
Proof. exists (map_to_list m). split; [apply enumerates_map_to_list|done]. Qed.

Lemma AddressesOf_empty result : AddressesOf ∅ result -> result = [].
Proof.
  intros (es & Hes & ->). unfold enumerates in Hes. rewrite map_to_list_empty in Hes.
  by apply Permutation_nil_r in Hes as ->.
Qed.

(** The targets of one key stand in a snapshot as one block's worth of
    elements, next to a snapshot of the other keys. *)
Lemma AddressesOf_lookup m k hosts result :
  m !! k = Some hosts -> AddressesOf m result ->
  exists rest, AddressesOf (delete k m) rest /\ result ≡ₚ hosts ++ rest.
Proof.
  intros Hk Hres. exists (AddressesIn (map_to_list (delete k m))).
  split; [apply AddressesOf_map_to_list|].
  rewrite (AddressesOf_Permutation _ _ Hres), AddressesIn_concat.
  by rewrite <- (map_to_list_delete m k hosts Hk).
Qed.

Lemma AddressesOf_elem_of m k hosts result x :
  m !! k = Some hosts -> x ∈ hosts -> AddressesOf m result -> x ∈ result.
Proof.
  intros Hk Hx Hres. destruct (AddressesOf_lookup _ _ _ _ Hk Hres) as (rest & _ & ->).
  apply elem_of_app. by left.
Qed.

(** ** Properties of the refresh cycle *)

Section RefreshProperties.

Context {Ctx Err R : Type}.
Variable resolverResolve :
  Ctx -> string -> string -> R -> (list string * option Err) * R.

Abbreviation resolveEntry := (resolveEntry resolverResolve).
Abbreviation resolveEntries := (resolveEntries resolverResolve).
Abbreviation entryOutcome := (entryOutcome resolverResolve).
Abbreviation outcomes := (outcomes resolverResolve).
Abbreviation Resolve := (Resolve resolverResolve).

Implicit Types (p : Provider R) (addrs : list string) (k addr : string).

(** C2.  After [Resolve ctx addrs], every key of the cache is an element of
    [addrs]; a key that [addrs] does not hold is absent from the cache
    (its lookup is [None], not an empty list), so every snapshot
    [Addresses] can return is the flattening of entries whose keys all
    belong to [addrs]; and [Resolve] on the empty list leaves the empty
    cache, whose only snapshot is empty. *)
Theorem Resolve_keeps_only_requested ctx addrs p :
  (forall k, k ∈ dom (resolved (Resolve ctx addrs p).1) -> k ∈ addrs) /\
  (forall k, k ∉ addrs -> resolved (Resolve ctx addrs p).1 !! k = None) /\
  (forall result, Addresses (Resolve ctx addrs p).1 result ->
     exists es, enumerates es (resolved (Resolve ctx addrs p).1) /\
                result = AddressesIn es /\ Forall (fun e => e.1 ∈ addrs) es) /\
  resolved (Resolve ctx [] p).1 = ∅ /\
  (forall result, Addresses (Resolve ctx [] p).1 result -> result = []).
Proof.
  assert (Hnone : forall l k, k ∉ l -> resolved (Resolve ctx l p).1 !! k = None).
  { intros l k Hk. rewrite lookup_Resolve.
    apply contains_not_elem_of in Hk. by rewrite Hk. }
  assert (Hempty : resolved (Resolve ctx [] p).1 = ∅).
  { apply map_eq. intros k. rewrite lookup_empty. apply Hnone, not_elem_of_nil. }
  split; [|split; [|split; [|split]]].
  - intros k [v Hv]%elem_of_dom. destruct (decide (k ∈ addrs)) as [|Hn]; [done|].
    rewrite (Hnone addrs k Hn) in Hv. discriminate.
  - apply Hnone.
  - intros result (es & Hes & ->). exists es. split; [done|]. split; [done|].
    apply Forall_forall. intros [k v] Hin. simpl.
    unfold enumerates in Hes. rewrite Hes in Hin. apply elem_of_map_to_list in Hin.
    destruct (decide (k ∈ addrs)) as [|Hn]; [done|].
    rewrite (Hnone addrs k Hn) in Hin. discriminate.
  - exact Hempty.
  - intros result Hres. unfold Addresses in Hres. rewrite Hempty in Hres.
    by apply AddressesOf_empty.
Qed.

(** C4.  An entry without ['+'] is stored as [[addr]] by its iteration,
    with no call of the resolver (its state and both counters stay as they
    are) and whatever the resolver would do; after [Resolve] the cache maps
    the entry to [[addr]] and every snapshot of [Addresses] holds it. *)
Theorem Resolve_literal_stored ctx addrs p addr :
  Strings.hasPlus addr = false ->
  addr ∈ addrs ->
  (forall q, resolveEntry ctx q addr =
             mkProvider (resolver q) (<[addr := [addr]]> (resolved q))
                        (dnsResolveLookupsCount q) (dnsResolveFailuresCount q)) /\
  resolved (Resolve ctx addrs p).1 !! addr = Some [addr] /\
  (forall result, Addresses (Resolve ctx addrs p).1 result -> addr ∈ result).
Proof.
  intros Hlit Hin.
  assert (Hcache : resolved (Resolve ctx addrs p).1 !! addr = Some [addr]).
  { rewrite lookup_Resolve. apply contains_elem_of in Hin as Hc. rewrite Hc.
    apply list_elem_of_lookup in Hin as [i Hi].
    erewrite lastWrite_last with (j := i) (o := Literal) (v := [addr]); [done| |done|].
    - apply lookup_zip_Some. split; [done|].
      rewrite (lookup_outcomes _ _ _ _ _ addr Hi). by rewrite entryOutcome_literal.
    - intros j' o' _ [Hj' Ho']%lookup_zip_Some.
      rewrite (lookup_outcomes _ _ _ _ _ addr Hj'), entryOutcome_literal in Ho' by done.
      injection Ho' as <-. by right. }
  split; [|split; [done|]].
  - intros q. unfold resolveEntry. by rewrite (StringsFacts.SplitN_literal addr Hlit).
  - intros result Hres. eapply AddressesOf_elem_of; [exact Hcache| |exact Hres].
    apply list_elem_of_singleton. done.
Qed.

(** C6.  [Resolve] returns the nil error, for every input list, every
    provider and every resolver. *)
Theorem Resolve_returns_nil ctx addrs p : (Resolve ctx addrs p).2 = None.
Proof. done. Qed.


(** C1, amended.  When every lookup made for a spec during a call of
    [Resolve] fails (as for a spec that occurs once and whose lookup fails),
    the cache entry of the spec after the call is what it was before it,
    absent if it was absent.  Whatever the outcomes of the other entries, an
    iteration whose lookup fails leaves the whole cache as it finds it and
    the loop goes on with the entries behind it: every entry of the list
    gets its outcome. *)
Theorem Resolve_failed_lookups_keep_entry ctx addrs p addr :
  addr ∈ addrs ->
  (forall i o, addrs !! i = Some addr -> outcomes ctx p addrs !! i = Some o ->
               exists e, o = Failed e) ->
  resolved (Resolve ctx addrs p).1 !! addr = resolved p !! addr /\
  (forall before a after e,
     addrs = before ++ a :: after ->
     entryOutcome ctx (resolveEntries ctx p before) a = Failed e ->
     resolved (resolveEntry ctx (resolveEntries ctx p before) a)
       = resolved (resolveEntries ctx p before) /\
     resolveEntries ctx p addrs
       = resolveEntries ctx (resolveEntry ctx (resolveEntries ctx p before) a) after /\
     outcomes ctx p addrs
       = outcomes ctx p before ++ Failed e ::
         outcomes ctx (resolveEntry ctx (resolveEntries ctx p before) a) after) /\
  length (outcomes ctx p addrs) = length addrs.
Proof.
  intros Hin Hfail. split; [|split; [|apply length_outcomes]].
  - rewrite lookup_Resolve. apply contains_elem_of in Hin as ->.
    rewrite lastWrite_no_write; [done|].
    intros i o [Hi Ho]%lookup_zip_Some. apply written_Failed. by apply (Hfail i).
  - intros before a after e -> Ha. split; [|split].
    + rewrite resolved_resolveEntry. by rewrite Ha.
    + by rewrite resolveEntries_app.
    + rewrite outcomes_app. cbn [outcomes]. by rewrite Ha.
Qed.

(** C3, amended.  The iteration of an entry whose lookup succeeds assigns
    the returned list, empty or not, to the cache entry of the spec.  When
    the later lookups of the same spec in the list fail or return the same
    list, the cache after [Resolve] maps the spec to that list, and every
    snapshot of [Addresses] consists of that list next to a snapshot of the
    other keys. *)
Theorem Resolve_successful_lookup_stored ctx addrs p i addr hosts :
  addrs !! i = Some addr ->
  outcomes ctx p addrs !! i = Some (Resolved hosts) ->
  (forall j o, i < j -> addrs !! j = Some addr -> outcomes ctx p addrs !! j = Some o ->
               (exists e, o = Failed e) \/ o = Resolved hosts) ->
  resolved (resolveEntry ctx (resolveEntries ctx p (take i addrs)) addr)
    = <[addr := hosts]> (resolved (resolveEntries ctx p (take i addrs))) /\
  resolved (Resolve ctx addrs p).1 !! addr = Some hosts /\
  (forall result, Addresses (Resolve ctx addrs p).1 result ->
     exists rest, AddressesOf (delete addr (resolved (Resolve ctx addrs p).1)) rest /\
                  result ≡ₚ hosts ++ rest).
Proof.
  intros Hi Ho Hlater.
  assert (Hcache : resolved (Resolve ctx addrs p).1 !! addr = Some hosts).
  { rewrite lookup_Resolve.
    assert (Hin : addr ∈ addrs) by (apply list_elem_of_lookup; eauto).
    apply contains_elem_of in Hin as ->.
    erewrite lastWrite_last with (j := i) (o := Resolved hosts) (v := hosts); [done| |done|].
    - by apply lookup_zip_Some.
    - intros j o Hlt [Hj Hoj]%lookup_zip_Some.
      destruct (Hlater j o Hlt Hj Hoj) as [Hf | ->]; [left; by apply written_Failed|by right]. }
  split; [|split; [done|]].
  - rewrite resolved_resolveEntry.
    rewrite (lookup_outcomes _ _ _ _ _ addr Hi) in Ho. injection Ho as ->. done.
  - intros result Hres. by apply AddressesOf_lookup.
Qed.


(** C10.  When a spec occurs at two positions of the input list, every
    entry of the list still gets its outcome and every entry with a ['+']
    its lookup; the cache holds one value for the spec, the one stored by
    the last of its iterations that stores one (the value from before the
    call when none does), so that a later successful occurrence replaces
    what an earlier one stored; and every snapshot of [Addresses] consists
    of that one value next to a snapshot of the other keys. *)
Theorem Resolve_duplicates_one_entry ctx addrs p k i j :
  i < j -> addrs !! i = Some k -> addrs !! j = Some k ->
  length (outcomes ctx p addrs) = length addrs /\
  dnsResolveLookupsCount (Resolve ctx addrs p).1
    = dnsResolveLookupsCount p + length (filter (fun a => Strings.hasPlus a = true) addrs) /\
  resolved (Resolve ctx addrs p).1 !! k
    = match lastWrite k (zip addrs (outcomes ctx p addrs)) with
      | Some v => Some v
      | None => resolved p !! k
      end /\
  (forall hosts,
     outcomes ctx p addrs !! j = Some (Resolved hosts) ->
     (forall j' o, j < j' -> addrs !! j' = Some k -> outcomes ctx p addrs !! j' = Some o ->
                   exists e, o = Failed e) ->
     resolved (Resolve ctx addrs p).1 !! k = Some hosts) /\
  (forall hosts result,
     resolved (Resolve ctx addrs p).1 !! k = Some hosts ->
     Addresses (Resolve ctx addrs p).1 result ->
     exists rest, AddressesOf (delete k (resolved (Resolve ctx addrs p).1)) rest /\
                  result ≡ₚ hosts ++ rest).
Proof.
  intros Hlt Hi Hj.
  assert (Hin : contains addrs k = true).
  { apply contains_elem_of, list_elem_of_lookup. eauto. }
  split; [apply length_outcomes|]. split; [|split; [|split]].
  - unfold Resolve. cbn [fst dnsResolveLookupsCount]. apply lookups_resolveEntries.
  - by rewrite lookup_Resolve, Hin.
  - intros hosts Ho Hlater. rewrite lookup_Resolve, Hin.
    erewrite lastWrite_last with (j := j) (o := Resolved hosts) (v := hosts); [done| |done|].
    + by apply lookup_zip_Some.
    + intros j' o Hlt' [Hj' Ho']%lookup_zip_Some. left.
      apply written_Failed. by apply (Hlater j').
  - intros hosts result Hk Hres. by apply AddressesOf_lookup.
Qed.

End RefreshProperties.

(** ** The slice [Addresses] returns *)

Module MemFacts.
Import Mem.

Lemma length_writeAt i xs cells :
  i + length xs <= length cells -> length (writeAt i xs cells) = length cells.
Proof.
  intros H. unfold writeAt. rewrite !length_app, length_take, length_drop. lia.
Qed.

(** Writing [xs] behind the first [n] cells of a window lengthens what is
    seen through the window by [xs]. *)
Lemma window_writeAt off n xs cells :
  off + n + length xs <= length cells ->
  take (n + length xs) (drop off (writeAt (off + n) xs cells))
  = take n (drop off cells) ++ xs.
Proof.
  intros H. unfold writeAt.
  rewrite drop_app_le by (rewrite length_take; lia).
  rewrite <- take_drop_commute, app_assoc.
  apply take_app_length'.
  rewrite length_app, length_take, length_drop. lia.
Qed.

Lemma keeps_dom h0 h : keeps h0 h -> dom h0 ⊆ dom h.
Proof.
  intros Hk l Hl. specialize (Hk l Hl). apply elem_of_dom.
  rewrite Hk. by apply elem_of_dom.
Qed.

Lemma keeps_elems h0 h s :
  keeps h0 h -> (forall a, array s = Some a -> a ∈ dom h0) -> elems h s = elems h0 s.
Proof.
  intros Hk Hs. unfold elems. destruct (array s) as [a|]; [|done].
  by rewrite (Hk a (Hs a eq_refl)).
Qed.

Lemma keeps_view h0 h m : keeps h0 h -> allocated h0 m -> view h m = view h0 m.
Proof.
  intros Hk Hm. unfold view. apply map_eq. intros k. rewrite !lookup_fmap.
  destruct (m !! k) as [s|] eqn:E; [|done]. simpl. f_equal.
  apply keeps_elems; [done|]. intros a Ha. by apply (Hm k s a).
Qed.

Lemma length_elems_own h0 h result :
  ownResult h0 h result -> length (elems h result) = len result.
Proof.
  unfold ownResult, elems. destruct (array result) as [a|].
  - intros (_ & Hle & cells & -> & Hcells). simpl.
    rewrite length_take, length_drop. lia.
  - by intros [-> _].
Qed.

(** One [append] on the slice under construction. *)
Lemma append_own growth h0 h result xs :
  keeps h0 h -> ownResult h0 h result ->
  keeps h0 (append growth h result xs).1 /\
  ownResult h0 (append growth h result xs).1 (append growth h result xs).2 /\
  elems (append growth h result xs).1 (append growth h result xs).2 = elems h result ++ xs.
Proof.
  intros Hk Hown. unfold append.
  destruct (decide (len result + length xs <= cap result)) as [Hfit|Hgrow].
  - unfold ownResult, elems in *. destruct (array result) as [a|] eqn:Ea; cbn [fst snd].
    + destruct Hown as (Hfresh & Hle & cells & Hcells & Hlen).
      split; [|split].
      * intros l Hl. rewrite lookup_alter_ne by (intros ->; done). by apply Hk.
      * cbn [array len cap offset]. split; [done|]. split; [done|].
        exists (writeAt (offset result + len result) xs cells).
        rewrite lookup_alter_eq, Hcells. split; [done|].
        rewrite length_writeAt; lia.
      * cbn [array len cap offset]. rewrite lookup_alter_eq, Hcells. simpl.
        apply window_writeAt. lia.
    + destruct Hown as [Hl Hc]. rewrite Ea.
      assert (xs = []) as -> by (apply nil_length_inv; lia).
      split; [done|]. split; [done|]. done.
  - cbn [fst snd].
    pose proof (is_fresh (dom h)) as Hfresh.
    pose proof (keeps_dom _ _ Hk) as Hdom.
    pose proof (length_elems_own _ _ _ Hown) as Hlen.
    set (a := fresh (dom h)) in *.
    split; [|split].
    + intros l Hl. rewrite lookup_insert_ne; [by apply Hk|]. intros <-. set_solver.
    + unfold ownResult. cbn [array len cap offset].
      split; [set_solver|]. split; [lia|].
      eexists. rewrite lookup_insert_eq. split; [done|].
      rewrite !length_app, length_replicate, Hlen. lia.
    + unfold elems at 1. cbn [array len cap offset]. rewrite lookup_insert_eq. simpl.
      rewrite drop_0, app_assoc. apply take_app_length'.
      rewrite length_app, Hlen. done.
Qed.

(** The loop of [Addresses], from any point of the construction. *)
Lemma Addresses_loop growth h0 (es : list (string * slice)) h result :
  keeps h0 h -> ownResult h0 h result ->
  Forall (fun e => forall a, array e.2 = Some a -> a ∈ dom h0) es ->
  let final := foldl (fun '(h, result) e => append growth h result (elems h e.2))
                     (h, result) es in
  keeps h0 final.1 /\ ownResult h0 final.1 final.2 /\
  elems final.1 final.2 = elems h result ++ concat ((elems h0 ∘ snd) <$> es).
Proof.
  intros Hk Hown Hes. revert h result Hk Hown.
  induction Hes as [|e es He Hes IH]; intros h result Hk Hown; cbn [foldl fmap list_fmap concat].
  - by rewrite app_nil_r.
  - destruct (append_own growth h0 h result (elems h e.2) Hk Hown) as (Hk' & Hown' & Hel).
    destruct (append growth h result (elems h e.2)) as [h' result'] eqn:E.
    cbn [fst snd] in *.
    destruct (IH h' result' Hk' Hown') as (Hk'' & Hown'' & Hel'').
    split; [done|]. split; [done|].
    rewrite Hel'', Hel. rewrite (keeps_elems h0 h e.2 Hk He). by rewrite <- app_assoc.
Qed.

Lemma keeps_refl h : keeps h h.
Proof. by intros l _. Qed.

Lemma ownResult_nil h0 h : ownResult h0 h nilSlice.
Proof. done. Qed.

Lemma allocated_enumerates h m (es : list (string * slice)) :
  allocated h m -> enumerates es m ->
  Forall (fun e => forall a, array e.2 = Some a -> a ∈ dom h) es.
Proof.
  intros Hm Hes. apply Forall_forall. intros [k s] Hin a Ha. simpl in Ha.
  unfold enumerates in Hes. rewrite Hes in Hin. apply elem_of_map_to_list in Hin.
  by apply (Hm k s a).
Qed.

(** Ranging over the slices in the order [es] is ranging over their
    contents in the same order. *)
Lemma enumerates_view h m (es : list (string * slice)) :
  enumerates es m -> enumerates (prod_map id (elems h) <$> es) (view h m).
Proof.
  unfold enumerates, view. intros Hes. rewrite map_to_list_fmap. by rewrite Hes.
Qed.

(** Overwriting the array of the returned slice changes no cached slice. *)
Lemma own_array_private h0 h result m a cells :
  keeps h0 h -> ownResult h0 h result -> allocated h0 m ->
  array result = Some a -> view (<[a := cells]> h) m = view h0 m.
Proof.
  intros Hk Hown Hm Ha. apply keeps_view; [|done].
  unfold ownResult in Hown. rewrite Ha in Hown. destruct Hown as (Hfresh & _).
  intros l Hl. rewrite lookup_insert_ne; [by apply Hk|]. by intros <-.
Qed.

(** Assigning to an element of the returned slice keeps the arrays of
    [h0] as they are. *)
Lemma store_keeps h0 h result i v :
  keeps h0 h -> ownResult h0 h result -> keeps h0 (store h result i v).
Proof.
  intros Hk Hown. unfold store, ownResult in *.
  destruct (array result) as [a|]; [|done].
  destruct (decide (i < len result)) as [Hi|]; [|done].
  destruct Hown as (Hfresh & _).
  intros l Hl. rewrite lookup_alter_ne; [by apply Hk|]. by intros <-.
Qed.

End MemFacts.

(** C5.  Let the cache of [p] be what the cached slices [m] show in the
    store [h].  Every result [Addresses] can return is a rearrangement of
    the concatenation of the cached lists: the same strings with the same
    numbers of occurrences.  Run on the slices in any iteration order, the
    loop returns a slice that shows the concatenation of the cached lists
    in that order, one of those results, and the empty sequence for the
    empty cache; the call leaves the cache as it was.  The returned slice
    lies on an array of its own: assigning to its elements, appending to it,
    or overwriting its array in any way leaves the cache as it was. *)
Theorem Addresses_flattens_into_own_array
    {R : Type} (p : Provider R) growth (h : Mem.heap) (m : gmap string Mem.slice)
    (es : list (string * Mem.slice)) :
  resolved p = Mem.view h m ->
  Mem.allocated h m ->
  enumerates es m ->
  (forall result, Addresses p result -> result ≡ₚ concat (map_to_list (resolved p)).*2) /\
  Mem.elems (Mem.Addresses growth es h).1 (Mem.Addresses growth es h).2
    = concat ((Mem.elems h ∘ snd) <$> es) /\
  Addresses p (Mem.elems (Mem.Addresses growth es h).1 (Mem.Addresses growth es h).2) /\
  (resolved p = ∅ ->
   Mem.elems (Mem.Addresses growth es h).1 (Mem.Addresses growth es h).2 = []) /\
  Mem.view (Mem.Addresses growth es h).1 m = resolved p /\
  (forall i v,
     Mem.view (Mem.store (Mem.Addresses growth es h).1 (Mem.Addresses growth es h).2 i v) m
     = resolved p) /\
  (forall growth' xs,
     Mem.view (Mem.append growth' (Mem.Addresses growth es h).1
                          (Mem.Addresses growth es h).2 xs).1 m
     = resolved p) /\
  (forall a cells,
     Mem.array (Mem.Addresses growth es h).2 = Some a ->
     Mem.view (<[a := cells]> (Mem.Addresses growth es h).1) m = resolved p).
Proof.
  intros Hp Hm Hes.
  destruct (MemFacts.Addresses_loop growth h es h Mem.nilSlice
              (MemFacts.keeps_refl h) (MemFacts.ownResult_nil h h)
              (MemFacts.allocated_enumerates h m es Hm Hes)) as (Hk & Hown & Hel).
  fold (Mem.Addresses growth es h) in Hk, Hown, Hel. cbn [app] in Hel.
  change (Mem.elems h Mem.nilSlice) with (@nil string) in Hel. cbn [app] in Hel.
  assert (Hres : Addresses p (Mem.elems (Mem.Addresses growth es h).1
                                        (Mem.Addresses growth es h).2)).
  { unfold Addresses. rewrite Hp. exists (prod_map id (Mem.elems h) <$> es).
    split; [by apply MemFacts.enumerates_view|].
    rewrite Hel, AddressesIn_concat. f_equal.
    rewrite <- list_fmap_compose. by apply list_fmap_ext. }
  split; [intros result; apply AddressesOf_Permutation|].
  split; [done|]. split; [done|]. split; [|split; [|split; [|split]]].
  - intros Hempty. unfold Addresses in Hres. rewrite Hempty in Hres.
    by apply AddressesOf_empty.
  - rewrite Hp. by apply MemFacts.keeps_view.
  - intros i v. rewrite Hp. apply MemFacts.keeps_view; [|done].
    by apply MemFacts.store_keeps.
  - intros growth' xs. rewrite Hp. apply MemFacts.keeps_view; [|done].
    by apply MemFacts.append_own.
  - intros a cells Ha. rewrite Hp. by eapply MemFacts.own_array_private.
Qed.

(** ** The scenarios of the specification *)

Example scenario_literal :
  AddressesList (Resolve Scripted.lookup tt ["127.0.0.1:9090"] (NewProvider [])).1
  = ["127.0.0.1:9090"].
Proof. vm_compute. reflexivity. Qed.

Example scenario_dns :
  AddressesList
    (Resolve (Canned.lookup Canned.exampleTable) tt ["dns+example.com:9090"] (NewProvider tt)).1
  = ["10.0.0.1:9090"; "10.0.0.2:9090"].
Proof. vm_compute. reflexivity. Qed.

Example scenario_dnssrv_then_empty :
  let p1 := (Resolve (Canned.lookup Canned.exampleTable) tt
                     ["dnssrv+_svc._tcp.example.com"] (NewProvider tt)).1 in
  AddressesList p1 = ["10.0.0.5:7000"] /\
  AddressesList (Resolve (Canned.lookup Canned.exampleTable) tt [] p1).1 = [].
Proof. vm_compute. done. Qed.

Example scenario_failing :
  let p1 := (Resolve (Canned.lookup Canned.exampleTable) tt
                     ["dns+bad.example.com:9090"] (NewProvider tt)).1 in
  AddressesList p1 = [] /\ resolved p1 !! "dns+bad.example.com:9090" = None /\
  dnsResolveFailuresCount p1 = 1.
Proof. vm_compute. done. Qed.

(** A successful lookup that returns no target leaves an entry, an empty one. *)
Example scenario_empty_answer :
  resolved (Resolve (Canned.lookup Canned.exampleTable) tt
                    ["dns+empty.example.com:9090"] (NewProvider tt)).1
    !! "dns+empty.example.com:9090" = Some [].
Proof. vm_compute. reflexivity. Qed.

(** A literal given twice is reported once. *)
Example scenario_duplicates :
  AddressesList
    (Resolve Scripted.lookup tt ["127.0.0.1:9090"; "127.0.0.1:9090"] (NewProvider [])).1
  = ["127.0.0.1:9090"].
Proof. vm_compute. reflexivity. Qed.

(** ** Inputs on which two statements of the specification fail *)

(** C1 as stated fails: the list holds the spec twice, the first lookup
    succeeds and the second one fails; the entry of the spec, absent before
    the call, is there after it. *)
Lemma Resolve_failed_lookup_entry_changed :
  ["dns+a"; "dns+a"] !! 1 = Some "dns+a" /\
  outcomes Scripted.lookup tt Scripted.answersThenFails ["dns+a"; "dns+a"] !! 1
    = Some (Failed "timeout") /\
  resolved Scripted.answersThenFails !! "dns+a" = None /\
  resolved (Resolve Scripted.lookup tt ["dns+a"; "dns+a"] Scripted.answersThenFails).1 !! "dns+a"
    = Some ["10.0.0.1:9090"] /\
  resolved (Resolve Scripted.lookup tt ["dns+a"; "dns+a"] Scripted.answersThenFails).1 !! "dns+a"
    <> resolved Scripted.answersThenFails !! "dns+a".
Proof. vm_compute. done. Qed.

(** C3 as stated fails: the list holds the spec twice and both lookups
    succeed, with different answers; the cache ends with the second answer
    and the snapshot does not hold the target of the first. *)
Lemma Resolve_successful_lookup_overwritten :
  ["dns+a"; "dns+a"] !! 0 = Some "dns+a" /\
  outcomes Scripted.lookup tt Scripted.answersTwice ["dns+a"; "dns+a"] !! 0
    = Some (Resolved ["10.0.0.1:9090"]) /\
  resolved (Resolve Scripted.lookup tt ["dns+a"; "dns+a"] Scripted.answersTwice).1 !! "dns+a"
    = Some ["10.0.0.2:9090"] /\
  resolved (Resolve Scripted.lookup tt ["dns+a"; "dns+a"] Scripted.answersTwice).1 !! "dns+a"
    <> Some ["10.0.0.1:9090"] /\
  AddressesList (Resolve Scripted.lookup tt ["dns+a"; "dns+a"] Scripted.answersTwice).1
    = ["10.0.0.2:9090"].
Proof. vm_compute. done. Qed.

(** ** The theorems at concrete inputs *)

(** A spec that resolved in an earlier cycle and fails in this one keeps
    its targets. *)
Lemma Resolve_failed_lookups_keep_entry_witness :
  "dns+a" ∈ ["dns+a"; "127.0.0.1:9090"] /\
  (forall i o, ["dns+a"; "127.0.0.1:9090"] !! i = Some "dns+a" ->
               outcomes Scripted.lookup tt Scripted.afterFirstCycle
                        ["dns+a"; "127.0.0.1:9090"] !! i = Some o ->
               exists e, o = Failed e) /\
  resolved (Resolve Scripted.lookup tt ["dns+a"; "127.0.0.1:9090"]
                    Scripted.afterFirstCycle).1 !! "dns+a"
    = resolved Scripted.afterFirstCycle !! "dns+a".
Proof.
  assert (Hin : "dns+a" ∈ ["dns+a"; "127.0.0.1:9090"]) by apply list_elem_of_here.
  assert (Hfail : forall i o, ["dns+a"; "127.0.0.1:9090"] !! i = Some "dns+a" ->
            outcomes Scripted.lookup tt Scripted.afterFirstCycle
                     ["dns+a"; "127.0.0.1:9090"] !! i = Some o ->
            exists e, o = Failed e).
  { intros [|[|i]] o Hi Ho; [|discriminate Hi..].
    vm_compute in Ho. injection Ho as <-. by eexists. }
  split; [exact Hin|]. split; [exact Hfail|].
  exact (proj1 (Resolve_failed_lookups_keep_entry Scripted.lookup tt
                  ["dns+a"; "127.0.0.1:9090"] Scripted.afterFirstCycle "dns+a" Hin Hfail)).
Defined.

Lemma Resolve_keeps_only_requested_witness :
  ("dns+a" ∉ ["127.0.0.1:9090"]) /\
  resolved (Resolve Scripted.lookup tt ["127.0.0.1:9090"] Scripted.afterFirstCycle).1
    !! "dns+a" = None.
Proof.
  assert (Hout : "dns+a" ∉ ["127.0.0.1:9090"]).
  { apply contains_not_elem_of. reflexivity. }
  split; [exact Hout|].
  exact (proj1 (proj2 (Resolve_keeps_only_requested Scripted.lookup tt ["127.0.0.1:9090"]
                         Scripted.afterFirstCycle)) "dns+a" Hout).
Defined.

Lemma Resolve_successful_lookup_stored_witness :
  Canned.exampleAddrs !! 0 = Some "dns+example.com:9090" /\
  outcomes (Canned.lookup Canned.exampleTable) tt (NewProvider tt) Canned.exampleAddrs !! 0
    = Some (Resolved ["10.0.0.1:9090"; "10.0.0.2:9090"]) /\
  resolved (Resolve (Canned.lookup Canned.exampleTable) tt Canned.exampleAddrs
                    (NewProvider tt)).1 !! "dns+example.com:9090"
    = Some ["10.0.0.1:9090"; "10.0.0.2:9090"].
Proof.
  split; [reflexivity|]. split; [reflexivity|].
  refine (proj1 (proj2 (Resolve_successful_lookup_stored (Canned.lookup Canned.exampleTable)
            tt Canned.exampleAddrs (NewProvider tt) 0 "dns+example.com:9090"
            ["10.0.0.1:9090"; "10.0.0.2:9090"] eq_refl eq_refl _))).
  intros [|[|[|j]]] o Hlt Hj Ho; [lia|discriminate Hj..].
Defined.

Lemma Resolve_literal_stored_witness :
  Strings.hasPlus "127.0.0.1:9090" = false /\
  "127.0.0.1:9090" ∈ ["dns+a"; "127.0.0.1:9090"] /\
  resolved (Resolve Scripted.lookup tt ["dns+a"; "127.0.0.1:9090"] (NewProvider [])).1
    !! "127.0.0.1:9090" = Some ["127.0.0.1:9090"].
Proof.
  assert (Hin : "127.0.0.1:9090" ∈ ["dns+a"; "127.0.0.1:9090"]).
  { apply list_elem_of_further, list_elem_of_here. }
  split; [reflexivity|]. split; [exact Hin|].
  exact (proj1 (proj2 (Resolve_literal_stored Scripted.lookup tt ["dns+a"; "127.0.0.1:9090"]
                         (NewProvider []) "127.0.0.1:9090" eq_refl Hin))).
Defined.



Lemma Resolve_duplicates_one_entry_witness :
  0 < 1 /\ ["dns+a"; "dns+a"] !! 0 = Some "dns+a" /\ ["dns+a"; "dns+a"] !! 1 = Some "dns+a" /\
  dnsResolveLookupsCount (Resolve Scripted.lookup tt ["dns+a"; "dns+a"] Scripted.answersTwice).1
    = 2 /\
  resolved (Resolve Scripted.lookup tt ["dns+a"; "dns+a"] Scripted.answersTwice).1 !! "dns+a"
    = Some ["10.0.0.2:9090"].
Proof.
  pose proof (Resolve_duplicates_one_entry Scripted.lookup tt ["dns+a"; "dns+a"]
                Scripted.answersTwice "dns+a" 0 1 (le_n 1) eq_refl eq_refl)
    as (_ & Hcount & _ & Hlast & _).
  split; [apply le_n|]. split; [reflexivity|]. split; [reflexivity|].
  split; [exact Hcount|].
  apply (Hlast ["10.0.0.2:9090"] eq_refl).
  intros [|[|j']] o Hlt Hj Ho; [lia..|discriminate Hj].
Defined.

Lemma Addresses_flattens_into_own_array_witness :
  resolved exampleProvider = Mem.view exampleHeap exampleSlices /\
  Mem.allocated exampleHeap exampleSlices /\
  enumerates [("dns+example.com:9090", exampleSlice)] exampleSlices /\
  Mem.elems
    (Mem.Addresses exactGrowth [("dns+example.com:9090", exampleSlice)] exampleHeap).1
    (Mem.Addresses exactGrowth [("dns+example.com:9090", exampleSlice)] exampleHeap).2
    = ["10.0.0.1:9090"; "10.0.0.2:9090"] /\
  Mem.view
    (Mem.store
       (Mem.Addresses exactGrowth [("dns+example.com:9090", exampleSlice)] exampleHeap).1
       (Mem.Addresses exactGrowth [("dns+example.com:9090", exampleSlice)] exampleHeap).2
       0 "overwritten")
    exampleSlices
    = resolved exampleProvider.
Proof.
  assert (Halloc : Mem.allocated exampleHeap exampleSlices).
  { intros k s a Hk Ha. unfold exampleSlices in Hk.
    apply lookup_singleton_Some in Hk as [_ <-].
    injection Ha as <-. apply elem_of_dom. by eexists. }
  assert (Hes : enumerates [("dns+example.com:9090", exampleSlice)] exampleSlices).
  { unfold enumerates, exampleSlices. by rewrite map_to_list_singleton. }
  pose proof (Addresses_flattens_into_own_array exampleProvider exactGrowth exampleHeap
                exampleSlices [("dns+example.com:9090", exampleSlice)]
                eq_refl Halloc Hes) as (_ & Hflat & _ & _ & _ & Hstore & _).
  split; [reflexivity|]. split; [exact Halloc|]. split; [exact Hes|].
  split; [exact Hflat|]. apply Hstore.
Defined.

(** ** Further properties of the helpers *)

(** X1.  [contains] is the membership test of its slice: it answers true exactly
    for the strings the slice holds, so it does not depend on where and how
    often a string occurs, and a concatenation contains what either part
    contains. *)
Theorem contains_is_membership (slice slice' : list string) (str : string) :
  (contains slice str = true <-> In str slice) /\
  (contains slice str = false <-> ~ In str slice) /\
  contains (slice ++ slice') str = (contains slice str || contains slice' str)%bool /\
  (slice ≡ₚ slice' -> contains slice str = contains slice' str).
Proof.
  assert (Hbool : forall l l' : list string,
            (str ∈ l <-> str ∈ l') -> contains l str = contains l' str).
  { intros l l' Hiff. destruct (contains l' str) eqn:E.
    - apply contains_elem_of, Hiff, contains_elem_of, E.
    - apply contains_not_elem_of. rewrite Hiff. by apply contains_not_elem_of. }
  split; [by rewrite contains_elem_of, list_elem_of_In|].
  split; [by rewrite contains_not_elem_of, list_elem_of_In|].
  split.
  - induction slice as [|s slice IH]; simpl; [done|].
    destruct (String.eqb str s); [done|exact IH].
  - intros Hperm. apply Hbool. by rewrite Hperm.
Qed.

(** X2.  The split of an entry has one or two parts.  It has one part, the
    entry itself, exactly when the entry holds no ['+'].  When it has two,
    the first holds no ['+'] and the parts joined by ['+'] give the entry
    back. *)
Theorem SplitN_parts (addr : string) :
  (Strings.hasPlus addr = false /\ Strings.SplitN_plus_2 addr = [addr]) \/
  (Strings.hasPlus addr = true /\
   exists qtype name,
     Strings.SplitN_plus_2 addr = [qtype; name] /\
     addr = (qtype ++ "+" ++ name)%string /\ Strings.hasPlus qtype = false).
Proof.
  destruct (Strings.hasPlus addr) eqn:E.
  - right. split; [done|].
    destruct (StringsFacts.SplitN_lookup addr E) as (q & name & Hsplit & Hcut).
    exists q, name. split; [done|]. by apply StringsFacts.cutPlus_Some.
  - left. split; [done|]. by apply StringsFacts.SplitN_literal.
Qed.

(** ** Further properties of the prune step *)

(** The keys collected for deletion are the keys of the iteration that
    [addrs] does not hold, in the order of the iteration. *)
Lemma entriesToDelete_filter addrs (es : list (string * list string)) :
  entriesToDelete addrs es = filter (fun k => k ∉ addrs) es.*1.
Proof.
  induction es as [|e es IH] using rev_ind; [done|].
  rewrite entriesToDelete_snoc, fmap_app, filter_app, IH. f_equal.
  change ([e].*1) with [e.1]. rewrite filter_cons, filter_nil.
  destruct (contains addrs e.1) eqn:E.
  - apply contains_elem_of in E. by rewrite decide_False by (intros Hn; by apply Hn).
  - apply contains_not_elem_of in E. by rewrite decide_True.
Qed.

(** X3.  In whatever order the cache is ranged over, the prune step leaves the
    cache restricted to the keys [addrs] holds: the entries under those keys
    keep their values and the others are gone.  Each key is collected for
    deletion at most once. *)
Theorem prune_is_restriction es addrs (m : gmap string (list string)) :
  enumerates es m ->
  pruneIn es addrs m = filter (fun kv => kv.1 ∈ addrs) m /\
  NoDup (entriesToDelete addrs es) /\
  (forall k, k ∈ addrs -> pruneIn es addrs m !! k = m !! k).
Proof.
  intros Hes. split; [|split].
  - apply map_eq. intros k. rewrite (lookup_pruneIn es addrs m k Hes).
    destruct (contains addrs k) eqn:E.
    + apply contains_elem_of in E. destruct (m !! k) as [v|] eqn:Hk.
      * symmetry. by apply map_lookup_filter_Some.
      * symmetry. apply map_lookup_filter_None. left. done.
    + apply contains_not_elem_of in E. symmetry. apply map_lookup_filter_None.
      right. intros v _. exact E.
  - rewrite entriesToDelete_filter. apply NoDup_filter.
    unfold enumerates in Hes. rewrite Hes. apply NoDup_fst_map_to_list.
  - intros k Hk. rewrite (lookup_pruneIn es addrs m k Hes).
    apply contains_elem_of in Hk. by rewrite Hk.
Qed.

(** ** Further properties of the refresh cycle *)

Section RefreshCycle.

Context {Ctx Err R : Type}.
Variable resolverResolve :
  Ctx -> string -> string -> R -> (list string * option Err) * R.

Abbreviation resolveEntry := (resolveEntry resolverResolve).
Abbreviation resolveEntries := (resolveEntries resolverResolve).
Abbreviation entryOutcome := (entryOutcome resolverResolve).
Abbreviation outcomes := (outcomes resolverResolve).
Abbreviation Resolve := (Resolve resolverResolve).
Abbreviation reachable := (reachable resolverResolve).

Implicit Types (p q : Provider R) (addrs : list string) (k addr : string).

(** An assignment to [k] happens exactly when some iteration on [k] stores
    a value. *)
Lemma lastWrite_is_Some k (run : list (string * Outcome Err)) :
  is_Some (lastWrite k run) <->
  exists i o, run !! i = Some (k, o) /\ is_Some (written k o).
Proof.
  induction run as [|[a o] run IH]; cbn.
  - split; [by intros [? ?]|]. by intros (i & o & Hi & _).
  - destruct (lastWrite k run) as [v|] eqn:E.
    + split; [intros _|by eexists].
      destruct (proj1 IH) as (i & o' & Hi & Hw); [by eexists|].
      by exists (S i), o'.
    + split.
      * destruct (decide (a = k)) as [->|]; [|by intros [? ?]].
        intros Hw. by exists 0, o.
      * intros ([|i] & o' & Hi & Hw).
        -- injection Hi as -> ->. by rewrite decide_True.
        -- destruct (proj2 IH) as [? ?]; [by exists i, o'|done].
Qed.

(** The outcome of an entry and the resolver state it leaves depend on the
    provider through its resolver state only. *)
Lemma resolveEntry_resolver ctx p q addr :
  resolver p = resolver q ->
  entryOutcome ctx p addr = entryOutcome ctx q addr /\
  resolver (resolveEntry ctx p addr) = resolver (resolveEntry ctx q addr).
Proof.
  intros Hr. unfold entryOutcome, resolveEntry. rewrite Hr.
  destruct (Strings.SplitN_plus_2 addr) as [|qt [|name [|? ?]]]; try done.
  by destruct (resolverResolve ctx name qt (resolver q)) as [[hosts [e|]] r'].
Qed.

Lemma resolveEntries_resolver ctx p q addrs :
  resolver p = resolver q ->
  outcomes ctx p addrs = outcomes ctx q addrs /\
  resolver (resolveEntries ctx p addrs) = resolver (resolveEntries ctx q addrs).
Proof.
  revert p q. induction addrs as [|a addrs IH]; intros p q Hr; [done|].
  destruct (resolveEntry_resolver ctx p q a Hr) as [Ho Hr'].
  destruct (IH _ _ Hr') as [Hos Hrs].
  split; [|exact Hrs]. cbn [outcomes]. by rewrite Ho, Hos.
Qed.

(** One failure is counted for each failed lookup. *)
Lemma failures_resolveEntries ctx p addrs :
  dnsResolveFailuresCount (resolveEntries ctx p addrs) =
  dnsResolveFailuresCount p + countFailed (outcomes ctx p addrs).
Proof.
  revert p. induction addrs as [|a addrs IH]; intros p; [simpl; lia|].
  rewrite resolveEntries_cons, IH. cbn [outcomes].
  generalize (outcomes ctx (resolveEntry ctx p a) addrs). intros os.
  unfold resolveEntry, entryOutcome.
  destruct (Strings.SplitN_plus_2 a) as [|qt [|name [|? ?]]]; simpl; try lia.
  destruct (resolverResolve ctx name qt (resolver p)) as [[hosts [e|]] r']; simpl; lia.
Qed.

Lemma countFailed_le (os : list (Outcome Err)) : countFailed os <= length os.
Proof. induction os as [|[| |] os IH]; simpl; lia. Qed.

(** Failed lookups are counted among the outcomes of entries with a ['+']. *)
Lemma countFailed_outcomes ctx p addrs :
  countFailed (outcomes ctx p addrs)
  <= length (filter (fun a => Strings.hasPlus a = true) addrs).
Proof.
  revert p. induction addrs as [|a addrs IH]; intros p; [done|].
  cbn [outcomes]. rewrite filter_cons. specialize (IH (resolveEntry ctx p a)).
  destruct (decide (Strings.hasPlus a = true)) as [Hp|Hp].
  - destruct (entryOutcome ctx p a); simpl; lia.
  - apply not_true_is_false in Hp. rewrite (entryOutcome_literal _ ctx p a Hp). simpl. lia.
Qed.

(** When every iteration on [k] has the same outcome, that outcome decides
    what the cycle assigns to [k]. *)
Lemma lastWrite_uniform ctx p addrs k (o : Outcome Err) :
  (forall i, addrs !! i = Some k -> outcomes ctx p addrs !! i = Some o) ->
  lastWrite k (zip addrs (outcomes ctx p addrs))
  = if contains addrs k then written k o else None.
Proof.
  intros Hsame. destruct (contains addrs k) eqn:E.
  - apply contains_elem_of, list_elem_of_lookup in E as [i Hi].
    destruct (written k o) as [v|] eqn:Hw.
    + apply lastWrite_last with (j := i) (o := o); [|done|].
      * apply lookup_zip_Some. split; [done|]. by apply Hsame.
      * intros j' o' _ [Hj' Ho']%lookup_zip_Some. right.
        rewrite (Hsame j' Hj') in Ho'. by injection Ho' as <-.
    + apply lastWrite_no_write. intros j o' [Hj Ho']%lookup_zip_Some.
      rewrite (Hsame j Hj) in Ho'. by injection Ho' as <-.
  - apply lastWrite_no_write. intros j o' [Hj _]%lookup_zip_Some.
    apply contains_not_elem_of in E. destruct E. apply list_elem_of_lookup. eauto.
Qed.

(** The first loop on entries without ['+'] leaves the resolver and the
    counters alone. *)
Lemma resolveEntries_literals ctx p addrs :
  Forall (fun a => Strings.hasPlus a = false) addrs ->
  resolver (resolveEntries ctx p addrs) = resolver p /\
  dnsResolveLookupsCount (resolveEntries ctx p addrs) = dnsResolveLookupsCount p /\
  dnsResolveFailuresCount (resolveEntries ctx p addrs) = dnsResolveFailuresCount p.
Proof.
  intros Hlit. revert p. induction Hlit as [|a addrs Ha _ IH]; intros p; [done|].
  rewrite resolveEntries_cons. destruct (IH (resolveEntry ctx p a)) as (-> & -> & ->).
  unfold resolveEntry. by rewrite (StringsFacts.SplitN_literal a Ha).
Qed.

(** X4.  The keys of the cache after [Resolve]: a key is there exactly when
    [addrs] holds it and either it was there before the call or one of its
    iterations stored a value.  So a cycle adds no key whose lookups all
    fail and drops no requested key that was cached. *)
Theorem Resolve_keys ctx addrs p k :
  k ∈ dom (resolved (Resolve ctx addrs p).1) <->
  k ∈ addrs /\
  (k ∈ dom (resolved p) \/
   exists i o, addrs !! i = Some k /\ outcomes ctx p addrs !! i = Some o /\
               is_Some (written k o)).
Proof.
  rewrite !elem_of_dom, lookup_Resolve, <- contains_elem_of.
  destruct (contains addrs k); [|split; [by intros [? ?]|by intros [? _]]].
  pose proof (lastWrite_is_Some k (zip addrs (outcomes ctx p addrs))) as Hw.
  destruct (lastWrite k _) as [v|].
  - split; [intros _|by eexists]. split; [done|]. right.
    destruct (proj1 Hw) as (i & o & [Hi Ho]%lookup_zip_Some & Hv); [by eexists|].
    by exists i, o.
  - split; [intros Hk; split; [done|by left]|].
    intros [_ [Hk|(i & o & Hi & Ho & Hv)]]; [done|].
    destruct (proj2 Hw) as [? ?]; [|done].
    exists i, o. split; [by apply lookup_zip_Some|done].
Qed.

(** X5.  The counters after [Resolve]: the lookups grow by the number of entries
    with a ['+'], occurrences counted, the failures by the number of failed
    lookups, which is at most the former; so neither counter decreases and
    the failures stay at most the lookups. *)
Theorem Resolve_counters ctx addrs p :
  dnsResolveLookupsCount (Resolve ctx addrs p).1
    = dnsResolveLookupsCount p
      + length (filter (fun a => Strings.hasPlus a = true) addrs) /\
  dnsResolveFailuresCount (Resolve ctx addrs p).1
    = dnsResolveFailuresCount p + countFailed (outcomes ctx p addrs) /\
  countFailed (outcomes ctx p addrs)
    <= length (filter (fun a => Strings.hasPlus a = true) addrs) /\
  (dnsResolveFailuresCount p <= dnsResolveLookupsCount p ->
   dnsResolveFailuresCount (Resolve ctx addrs p).1
     <= dnsResolveLookupsCount (Resolve ctx addrs p).1).
Proof.
  unfold Resolve. cbn [fst dnsResolveLookupsCount dnsResolveFailuresCount].
  rewrite lookups_resolveEntries, failures_resolveEntries.
  pose proof (countFailed_outcomes ctx p addrs).
  repeat split; [done|lia].
Qed.

(** X6.  For a resolver whose answer to a lookup depends on the name and the
    query type only, the cache after [Resolve] is, key by key: nothing for a
    key [addrs] does not hold; [[k]] for a key without ['+']; the answer for
    a key whose lookup succeeds; what the cache held before for a key whose
    lookup fails. *)
Theorem Resolve_stateless_resolver ctx answer addrs p k :
  (forall name qtype r, (resolverResolve ctx name qtype r).1 = answer name qtype) ->
  resolved (Resolve ctx addrs p).1 !! k =
    if contains addrs k then
      match Strings.cutPlus k with
      | None => Some [k]
      | Some (qtype, name) =>
          match answer name qtype with
          | (hosts, None) => Some hosts
          | (_, Some _) => resolved p !! k
          end
      end
    else None.
Proof.
  intros Hdet. rewrite lookup_Resolve.
  rewrite (lastWrite_uniform ctx p addrs k (entryOutcome ctx p k)).
  - destruct (contains addrs k); [|done].
    unfold entryOutcome, Strings.SplitN_plus_2.
    destruct (Strings.cutPlus k) as [[qtype name]|]; [|done].
    rewrite Hdet. by destruct (answer name qtype) as [hosts [e|]].
  - intros i Hi. rewrite (lookup_outcomes _ ctx p addrs i k Hi). f_equal.
    unfold entryOutcome.
    destruct (Strings.SplitN_plus_2 k) as [|qt [|name [|? ?]]]; try done.
    by rewrite !Hdet.
Qed.

(** X7.  For such a resolver the cache after [Resolve] depends on which entries
    [addrs] holds, not on their order nor on how often they occur. *)
Theorem Resolve_stateless_order ctx answer addrs addrs' p :
  (forall name qtype r, (resolverResolve ctx name qtype r).1 = answer name qtype) ->
  (forall a, a ∈ addrs <-> a ∈ addrs') ->
  resolved (Resolve ctx addrs p).1 = resolved (Resolve ctx addrs' p).1.
Proof.
  intros Hdet Hsame. apply map_eq. intros k. rewrite !lookup_Resolve.
  assert (Hout : forall l i, l !! i = Some k ->
            outcomes ctx p l !! i = Some (entryOutcome ctx p k)).
  { intros l i Hi. rewrite (lookup_outcomes _ ctx p l i k Hi). f_equal.
    unfold entryOutcome.
    destruct (Strings.SplitN_plus_2 k) as [|qt [|name [|? ?]]]; try done.
    by rewrite !Hdet. }
  rewrite !(lastWrite_uniform ctx p _ k (entryOutcome ctx p k)) by apply Hout.
  assert (contains addrs k = contains addrs' k) as ->; [|done].
  destruct (contains addrs' k) eqn:E.
  - apply contains_elem_of, Hsame, contains_elem_of, E.
  - apply contains_not_elem_of. rewrite Hsame. by apply contains_not_elem_of.
Qed.

(** X8.  On a list of entries without ['+'], [Resolve] makes no lookup: the
    resolver and both counters stay as they are, the cache becomes the map
    from each entry to the list holding it alone, and every snapshot of
    [Addresses] is a rearrangement of the list with its repetitions
    removed. *)
Theorem Resolve_all_literals ctx addrs p :
  Forall (fun a => Strings.hasPlus a = false) addrs ->
  resolver (Resolve ctx addrs p).1 = resolver p /\
  dnsResolveLookupsCount (Resolve ctx addrs p).1 = dnsResolveLookupsCount p /\
  dnsResolveFailuresCount (Resolve ctx addrs p).1 = dnsResolveFailuresCount p /\
  (forall k, resolved (Resolve ctx addrs p).1 !! k
             = if contains addrs k then Some [k] else None) /\
  (forall result, Addresses (Resolve ctx addrs p).1 result -> result ≡ₚ remove_dups addrs).
Proof.
  intros Hlit.
  destruct (resolveEntries_literals ctx p addrs Hlit) as (Hr & Hl & Hf).
  assert (Hcache : forall k, resolved (Resolve ctx addrs p).1 !! k
                             = if contains addrs k then Some [k] else None).
  { intros k. rewrite lookup_Resolve.
    rewrite (lastWrite_uniform ctx p addrs k Literal); [by destruct (contains addrs k)|].
    intros i Hi. rewrite (lookup_outcomes _ ctx p addrs i k Hi). f_equal.
    apply entryOutcome_literal. rewrite Forall_forall in Hlit. apply Hlit.
    apply list_elem_of_lookup. eauto. }
  split; [done|]. split; [done|]. split; [done|]. split; [done|].
  intros result Hres.
  set (l := (fun k : string => (k, [k])) <$> remove_dups addrs).
  assert (Hkeys : l.*1 = remove_dups addrs).
  { unfold l. rewrite <- list_fmap_compose. apply list_fmap_id. }
  assert (Hnodup : NoDup l.*1) by (rewrite Hkeys; apply NoDup_remove_dups).
  assert (Hmap : resolved (Resolve ctx addrs p).1 = list_to_map l).
  { apply map_eq. intros k. rewrite Hcache. destruct (contains addrs k) eqn:E.
    - symmetry. apply elem_of_list_to_map_1; [done|].
      apply list_elem_of_fmap. exists k. split; [done|].
      by apply elem_of_remove_dups, contains_elem_of.
    - symmetry. apply not_elem_of_list_to_map_1. rewrite Hkeys, elem_of_remove_dups.
      by apply contains_not_elem_of. }
  rewrite (AddressesOf_Permutation _ _ Hres), Hmap, (map_to_list_to_map l Hnodup).
  unfold l. generalize (remove_dups addrs). intros ks.
  induction ks as [|a ks IH]; [done|]. cbn. by rewrite IH.
Qed.

(** X10.  What [Resolve] computes depends on the cache from before the call only
    through the entries under the keys of [addrs]: two providers with the
    same resolver state that agree on those entries end with the same cache,
    the lookups having the same outcomes and leaving the same resolver
    state. *)
Theorem Resolve_ignores_stale_entries ctx addrs p q :
  resolver p = resolver q ->
  (forall k, k ∈ addrs -> resolved p !! k = resolved q !! k) ->
  resolved (Resolve ctx addrs p).1 = resolved (Resolve ctx addrs q).1 /\
  resolver (Resolve ctx addrs p).1 = resolver (Resolve ctx addrs q).1 /\
  outcomes ctx p addrs = outcomes ctx q addrs.
Proof.
  intros Hr Hagree.
  destruct (resolveEntries_resolver ctx p q addrs Hr) as [Hos Hrs].
  split; [|by split].
  apply map_eq. intros k. rewrite !lookup_Resolve, Hos.
  destruct (contains addrs k) eqn:E; [|done].
  destruct (lastWrite k _); [done|]. by apply Hagree, contains_elem_of.
Qed.


(** X9.  When every lookup of a cycle fails and the list holds no entry without
    ['+'], [Resolve] only prunes: the cache after it is the cache from before
    restricted to the keys of [addrs], each kept entry with the value it
    had, and one failure is counted per entry. *)
Theorem Resolve_all_failed ctx addrs p :
  (forall i o, outcomes ctx p addrs !! i = Some o -> exists e, o = Failed e) ->
  resolved (Resolve ctx addrs p).1 = filter (fun kv => kv.1 ∈ addrs) (resolved p) /\
  dnsResolveFailuresCount (Resolve ctx addrs p).1
    = dnsResolveFailuresCount p + length addrs.
Proof.
  intros Hfail. split.
  - apply map_eq. intros k. rewrite lookup_Resolve.
    rewrite lastWrite_no_write.
    + destruct (contains addrs k) eqn:E.
      * apply contains_elem_of in E. destruct (resolved p !! k) as [v|] eqn:Hk.
        -- symmetry. by apply map_lookup_filter_Some.
        -- symmetry. apply map_lookup_filter_None. by left.
      * apply contains_not_elem_of in E. symmetry. apply map_lookup_filter_None.
        right. intros v _. exact E.
    + intros i o [_ Ho]%lookup_zip_Some. apply written_Failed. by apply (Hfail i).
  - unfold Resolve. cbn [fst dnsResolveFailuresCount].
    rewrite failures_resolveEntries, <- (length_outcomes resolverResolve ctx p addrs). f_equal.
    generalize (outcomes ctx p addrs) Hfail. intros os Hos.
    induction os as [|o os IH]; [done|].
    destruct (Hos 0 o eq_refl) as [e ->]. cbn. f_equal.
    apply IH. intros i o' Hi. apply (Hos (S i) o' Hi).
Qed.

End RefreshCycle.

(** ** Further properties of the snapshot read *)

Lemma length_AddressesIn (es : list (string * list string)) :
  length (AddressesIn es) = sum_list_with (fun e => length e.2) es.
Proof.
  rewrite AddressesIn_concat. induction es as [|e es IH]; [done|].
  cbn. by rewrite length_app, IH.
Qed.

(** X12.  Every snapshot of [Addresses] holds the list cached under a key as one
    block, its elements next to each other in their cached order; its length
    is the sum of the lengths of the cached lists; and when the cache holds
    a single key the snapshot is the list cached under it. *)
Theorem Addresses_keeps_each_list {R} (p : Provider R) k hosts result :
  resolved p !! k = Some hosts ->
  Addresses p result ->
  (exists before after, result = before ++ hosts ++ after) /\
  length result = sum_list_with (fun e => length e.2) (map_to_list (resolved p)) /\
  ((forall k', k' ∈ dom (resolved p) -> k' = k) -> result = hosts).
Proof.
  intros Hk (es & Hes & ->). unfold enumerates in Hes. split; [|split].
  - assert (Hin : (k, hosts) ∈ es) by (rewrite Hes; by apply elem_of_map_to_list).
    apply list_elem_of_split in Hin as (es1 & es2 & ->).
    exists (concat es1.*2), (concat es2.*2).
    by rewrite AddressesIn_concat, fmap_app, concat_app.
  - rewrite length_AddressesIn. by rewrite Hes.
  - intros Honly.
    assert (Hm : resolved p = {[k := hosts]}).
    { apply map_eq. intros k'. destruct (decide (k' = k)) as [->|Hne].
      - by rewrite lookup_singleton_eq.
      - rewrite lookup_singleton_ne by done.
        destruct (resolved p !! k') as [v|] eqn:E; [|done].
        destruct Hne. apply Honly, elem_of_dom. by eexists. }
    rewrite Hm, map_to_list_singleton in Hes.
    by apply Permutation_singleton_r in Hes as ->.
Qed.

(** ** Further properties of the returned slice *)

Lemma Addresses_loop_nothing growth (es : list (string * Mem.slice)) (h : Mem.heap) :
  Forall (fun e => Mem.elems h e.2 = []) es ->
  Mem.Addresses growth es h = (h, Mem.nilSlice).
Proof.
  unfold Mem.Addresses. induction 1 as [|e es He _ IH]; [done|].
  cbn [foldl]. rewrite He. exact IH.
Qed.

(** X13.  [Addresses] returns the nil slice exactly when every cached slice is
    empty, as for the empty cache; it then leaves the store as it is,
    allocating nothing. *)
Theorem Addresses_nil_slice growth (h : Mem.heap) (m : gmap string Mem.slice)
    (es : list (string * Mem.slice)) :
  Mem.allocated h m ->
  enumerates es m ->
  (Mem.array (Mem.Addresses growth es h).2 = None <->
   forall k s, m !! k = Some s -> Mem.elems h s = []) /\
  (Mem.array (Mem.Addresses growth es h).2 = None ->
   Mem.Addresses growth es h = (h, Mem.nilSlice)).
Proof.
  intros Hm Hes.
  assert (Hall : (forall k s, m !! k = Some s -> Mem.elems h s = []) ->
                 Mem.Addresses growth es h = (h, Mem.nilSlice)).
  { intros Hempty. apply Addresses_loop_nothing, Forall_forall. intros [k s] Hin.
    unfold enumerates in Hes. rewrite Hes in Hin. apply elem_of_map_to_list in Hin.
    by apply (Hempty k s). }
  assert (Hnil : Mem.array (Mem.Addresses growth es h).2 = None ->
                 forall k s, m !! k = Some s -> Mem.elems h s = []).
  { intros Harr k s Hk.
    destruct (MemFacts.Addresses_loop growth h es h Mem.nilSlice
                (MemFacts.keeps_refl h) (MemFacts.ownResult_nil h h)
                (MemFacts.allocated_enumerates h m es Hm Hes)) as (_ & _ & Hel).
    fold (Mem.Addresses growth es h) in Hel.
    unfold Mem.elems at 1 in Hel. rewrite Harr in Hel.
    change (Mem.elems h Mem.nilSlice) with (@nil string) in Hel. cbn [app] in Hel.
    assert (Hin : (k, s) ∈ es).
    { unfold enumerates in Hes. rewrite Hes. by apply elem_of_map_to_list. }
    apply list_elem_of_split in Hin as (es1 & es2 & ->).
    rewrite fmap_app, concat_app in Hel. cbn in Hel.
    symmetry in Hel. apply app_eq_nil in Hel as [_ Hel].
    by apply app_eq_nil in Hel as [Hel _]. }
  split; [split; [exact Hnil|]|].
  - intros Hempty. by rewrite (Hall Hempty).
  - intros Harr. apply Hall, Hnil, Harr.
Qed.

(** ** The further theorems at concrete inputs *)

Lemma contains_is_membership_witness :
  ["a"; "b"] ≡ₚ ["b"; "a"] /\ contains ["a"; "b"] "b" = contains ["b"; "a"] "b".
Proof.
  assert (Hperm : ["a"; "b"] ≡ₚ ["b"; "a"]) by apply Permutation_swap.
  split; [exact Hperm|].
  exact (proj2 (proj2 (proj2 (contains_is_membership ["a"; "b"] ["b"; "a"] "b"))) Hperm).
Defined.

Lemma prune_is_restriction_witness :
  enumerates (map_to_list (resolved staleProvider)) (resolved staleProvider) /\
  pruneIn (map_to_list (resolved staleProvider)) ["127.0.0.1:9090"] (resolved staleProvider)
    = filter (fun kv => kv.1 ∈ ["127.0.0.1:9090"]) (resolved staleProvider).
Proof.
  split; [apply enumerates_map_to_list|].
  exact (proj1 (prune_is_restriction (map_to_list (resolved staleProvider))
                  ["127.0.0.1:9090"] (resolved staleProvider)
                  (enumerates_map_to_list (resolved staleProvider)))).
Defined.

Lemma Resolve_counters_witness :
  dnsResolveFailuresCount Scripted.answersThenFails
    <= dnsResolveLookupsCount Scripted.answersThenFails /\
  dnsResolveFailuresCount
    (Resolve Scripted.lookup tt ["dns+a"; "dns+a"] Scripted.answersThenFails).1
    <= dnsResolveLookupsCount
         (Resolve Scripted.lookup tt ["dns+a"; "dns+a"] Scripted.answersThenFails).1.
Proof.
  split; [apply le_n|].
  exact (proj2 (proj2 (proj2 (Resolve_counters Scripted.lookup tt ["dns+a"; "dns+a"]
                                Scripted.answersThenFails))) (le_n 0)).
Defined.

Lemma cannedAnswer_lookup t name qtype r :
  (Canned.lookup t tt name qtype r).1 = cannedAnswer t name qtype.
Proof. unfold Canned.lookup, cannedAnswer. by destruct (Canned.find t name qtype). Defined.

Lemma Resolve_stateless_resolver_witness :
  (forall name qtype r,
     (Canned.lookup Canned.exampleTable tt name qtype r).1
     = cannedAnswer Canned.exampleTable name qtype) /\
  resolved (Resolve (Canned.lookup Canned.exampleTable) tt Canned.exampleAddrs
                    (NewProvider tt)).1 !! "dns+bad.example.com:9090"
    = None.
Proof.
  split; [apply cannedAnswer_lookup|].
  exact (Resolve_stateless_resolver (Canned.lookup Canned.exampleTable) tt
           (cannedAnswer Canned.exampleTable) Canned.exampleAddrs (NewProvider tt)
           "dns+bad.example.com:9090" (cannedAnswer_lookup Canned.exampleTable)).
Defined.

Lemma Resolve_stateless_order_witness :
  (forall name qtype r,
     (Canned.lookup Canned.exampleTable tt name qtype r).1
     = cannedAnswer Canned.exampleTable name qtype) /\
  (forall a, a ∈ Canned.exampleAddrs <-> a ∈ Canned.exampleAddrs ++ Canned.exampleAddrs) /\
  resolved (Resolve (Canned.lookup Canned.exampleTable) tt Canned.exampleAddrs
                    (NewProvider tt)).1
    = resolved (Resolve (Canned.lookup Canned.exampleTable) tt
                        (Canned.exampleAddrs ++ Canned.exampleAddrs) (NewProvider tt)).1.
Proof.
  assert (Hsame : forall a, a ∈ Canned.exampleAddrs
                            <-> a ∈ Canned.exampleAddrs ++ Canned.exampleAddrs).
  { intros a. rewrite elem_of_app. tauto. }
  split; [apply cannedAnswer_lookup|]. split; [exact Hsame|].
  exact (Resolve_stateless_order (Canned.lookup Canned.exampleTable) tt
           (cannedAnswer Canned.exampleTable) Canned.exampleAddrs
           (Canned.exampleAddrs ++ Canned.exampleAddrs) (NewProvider tt)
           (cannedAnswer_lookup Canned.exampleTable) Hsame).
Defined.

Lemma Resolve_all_literals_witness :
  Forall (fun a => Strings.hasPlus a = false) ["10.0.0.1:9090"; "10.0.0.2:9090"; "10.0.0.1:9090"] /\
  resolver (Resolve Scripted.lookup tt ["10.0.0.1:9090"; "10.0.0.2:9090"; "10.0.0.1:9090"]
                    Scripted.answersTwice).1
    = resolver Scripted.answersTwice.
Proof.
  assert (Hlit : Forall (fun a => Strings.hasPlus a = false)
                        ["10.0.0.1:9090"; "10.0.0.2:9090"; "10.0.0.1:9090"]).
  { repeat constructor. }
  split; [exact Hlit|].
  exact (proj1 (Resolve_all_literals Scripted.lookup tt
                  ["10.0.0.1:9090"; "10.0.0.2:9090"; "10.0.0.1:9090"]
                  Scripted.answersTwice Hlit)).
Defined.

Lemma Resolve_ignores_stale_entries_witness :
  resolver (NewProvider []) = resolver staleProvider /\
  (forall k, k ∈ ["127.0.0.1:9090"] ->
             resolved (NewProvider ([] : Scripted.state)) !! k = resolved staleProvider !! k) /\
  resolved (Resolve Scripted.lookup tt ["127.0.0.1:9090"] (NewProvider [])).1
    = resolved (Resolve Scripted.lookup tt ["127.0.0.1:9090"] staleProvider).1.
Proof.
  assert (Hagree : forall k, k ∈ ["127.0.0.1:9090"] ->
            resolved (NewProvider ([] : Scripted.state)) !! k = resolved staleProvider !! k).
  { intros k Hk. apply list_elem_of_singleton in Hk as ->. reflexivity. }
  split; [reflexivity|]. split; [exact Hagree|].
  exact (proj1 (Resolve_ignores_stale_entries Scripted.lookup tt ["127.0.0.1:9090"]
                  (NewProvider []) staleProvider eq_refl Hagree)).
Defined.

Lemma Resolve_all_failed_witness :
  (forall i o,
     outcomes Scripted.lookup tt staleProvider ["dns+old.example.com:9090"] !! i = Some o ->
     exists e, o = Failed e) /\
  resolved (Resolve Scripted.lookup tt ["dns+old.example.com:9090"] staleProvider).1
    = filter (fun kv => kv.1 ∈ ["dns+old.example.com:9090"]) (resolved staleProvider).
Proof.
  assert (Hfail : forall i o,
            outcomes Scripted.lookup tt staleProvider ["dns+old.example.com:9090"] !! i
            = Some o -> exists e, o = Failed e).
  { intros [|i] o Ho; [|discriminate Ho]. injection Ho as <-. by eexists. }
  split; [exact Hfail|].
  exact (proj1 (Resolve_all_failed Scripted.lookup tt ["dns+old.example.com:9090"]
                  staleProvider Hfail)).
Defined.


Lemma Addresses_keeps_each_list_witness :
  resolved Canned.afterFirstCycle !! "dns+example.com:9090"
    = Some ["10.0.0.1:9090"; "10.0.0.2:9090"] /\
  Addresses Canned.afterFirstCycle (AddressesList Canned.afterFirstCycle) /\
  exists before after,
    AddressesList Canned.afterFirstCycle
    = before ++ ["10.0.0.1:9090"; "10.0.0.2:9090"] ++ after.
Proof.
  assert (Hres : Addresses Canned.afterFirstCycle (AddressesList Canned.afterFirstCycle)).
  { apply AddressesOf_map_to_list. }
  split; [reflexivity|]. split; [exact Hres|].
  exact (proj1 (Addresses_keeps_each_list Canned.afterFirstCycle "dns+example.com:9090"
                  ["10.0.0.1:9090"; "10.0.0.2:9090"]
                  (AddressesList Canned.afterFirstCycle) eq_refl Hres)).
Defined.

Lemma Addresses_nil_slice_witness :
  Mem.allocated exampleHeap ∅ /\
  enumerates [] (∅ : gmap string Mem.slice) /\
  Mem.Addresses exactGrowth [] exampleHeap = (exampleHeap, Mem.nilSlice).
Proof.
  assert (Halloc : Mem.allocated exampleHeap ∅).
  { intros k s a Hk. by rewrite lookup_empty in Hk. }
  assert (Hes : enumerates [] (∅ : gmap string Mem.slice)).
  { unfold enumerates. by rewrite map_to_list_empty. }
  split; [exact Halloc|]. split; [exact Hes|].
  exact (proj2 (Addresses_nil_slice exactGrowth exampleHeap ∅ [] Halloc Hes) eq_refl).
Defined.
